(** * The presence globe of [src/client/index.tsx]

    The client keeps two pieces of state: [positions], a JavaScript [Map]
    from connection ids to the markers shown on the globe, and [counter],
    the number shown in the "visitors online" badge.  The socket's
    [onMessage] handler updates both, and the globe's [onRender] callback
    reads the map once per animation frame.

    JavaScript numbers are IEEE-754 doubles: latitudes, longitudes, marker
    sizes and the rotation angle are modelled by Rocq's primitive binary64
    floats.  The counter only ever holds integers and moves by one per
    message; doubles are exact on integers of magnitude below 2^53, so it is
    modelled by [Z]. *)

From Stdlib Require Import List String ZArith Lia Bool PrimFloat.
From Stdlib Require Import DecimalString.
From Stdlib Require SpecFloat FloatOps FloatAxioms.
Import ListNotations.

Set Warnings "-inexact-float".

Local Open Scope string_scope.
Local Open Scope list_scope.

(** ** JavaScript [Map] with string keys

    A [Map] iterates in insertion order, and [values()] hands that order to
    the renderer, so the store is an association list kept in insertion
    order.  Keys are compared with [===], which on strings is [String.eqb]. *)

Module JsMap.

Definition t (V : Type) : Type := list (string * V).

Section Operations.
Context {V : Type}.

(** [new Map()] *)
Definition empty : t V := [].

(** [m.get(k)]; [None] stands for [undefined]. *)
Fixpoint get (k : string) (m : t V) : option V :=
  match m with
  | [] => None
  | (k', v) :: rest => if String.eqb k' k then Some v else get k rest
  end.

(** [m.set(k, v)]: an existing key keeps its place and takes the new
    value, a new key goes to the end. *)
Fixpoint set (k : string) (v : V) (m : t V) : t V :=
  match m with
  | [] => [(k, v)]
  | (k', v') :: rest =>
      if String.eqb k' k then (k, v) :: rest else (k', v') :: set k v rest
  end.

(** [m.delete(k)]: the entry under [k] goes, the others keep their order.
    A [Map] holds a key once, and so does a list built by [set] and
    [delete] from [empty]. *)
Fixpoint delete (k : string) (m : t V) : t V :=
  match m with
  | [] => []
  | (k', v') :: rest =>
      if String.eqb k' k then delete k rest else (k', v') :: delete k rest
  end.

(** [[...m.keys()]], [[...m.values()]] and [m.size]. *)
Definition keys (m : t V) : list string := map fst m.
Definition values (m : t V) : list V := map snd m.
Definition size (m : t V) : nat := List.length m.

End Operations.

End JsMap.

(** ** Messages *)

(** [{ id, lat, lng }], the [position] of an "add-marker" message. *)
Module Position.

Record t : Type := { id : string; lat : float; lng : float }.

End Position.

Module OutgoingMessage.

(** Modelled from the spec: the type [OutgoingMessage] that the client
    imports from "../shared" is not among the sources.  The wire contract
    gives it two shapes: [{ type: "add-marker", position: { id, lat, lng } }]
    and [{ type: <any other string>, id }].  The first shape has the
    constant tag "add-marker", the second carries its tag. *)
Inductive t : Type :=
| AddMarker (position : Position.t)
| Removal (type : string) (id : string).

(** [message.type] *)
Definition type (message : t) : string :=
  match message with
  | AddMarker _ => "add-marker"
  | Removal type _ => type
  end.

(** [message.position]; [None] stands for [undefined]. *)
Definition position (message : t) : option Position.t :=
  match message with
  | AddMarker position => Some position
  | Removal _ _ => None
  end.

(** [message.id]; [None] stands for [undefined]. *)
Definition id (message : t) : option string :=
  match message with
  | AddMarker _ => None
  | Removal _ id => Some id
  end.

End OutgoingMessage.

Import OutgoingMessage (AddMarker, Removal).

(** ** Component state *)

(** The values of the [positions] map. *)
Record Marker : Type := { location : float * float; size : float }.

(** [counter] (the React state) and [positions.current] (the ref). *)
Record AppState : Type := { counter : Z; positions : JsMap.t Marker }.

(** [useState(0)] and [useRef(new Map())]. *)
Definition initial : AppState :=
  {| counter := 0; positions := JsMap.empty |}.

(** What [onRender] writes into the renderer's [state] object. *)
Record GlobeState : Type := { markers : list Marker; phi : float }.

Section App.

(** [socket.id], the id of the client's own connection. *)
Variable socket_id : string.

(** The object literal that [onMessage] stores for an "add-marker"
    message: the location of its position, and a size that tells the
    client's own marker from the others. *)
Definition marker_of (position : Position.t) : Marker :=
  {| location := (Position.lat position, Position.lng position);
     size := if String.eqb (Position.id position) socket_id
             then 0.1%float else 0.05%float |}.

(** The socket's [onMessage], applied to the decoded message.  [None] is
    the [TypeError] that [message.position.id] raises when a message
    tagged "add-marker" has no [position].  String keys only enter the
    map, so [delete(undefined)] finds nothing to delete. *)
Definition onMessage (st : AppState) (message : OutgoingMessage.t)
  : option AppState :=
  if String.eqb (OutgoingMessage.type message) "add-marker" then
    match OutgoingMessage.position message with
    | Some position =>
        Some {| positions :=
                  JsMap.set (Position.id position) (marker_of position)
                    (positions st);
                counter := counter st + 1 |}
    | None => None
    end
  else
    Some {| positions :=
              match OutgoingMessage.id message with
              | Some id => JsMap.delete id (positions st)
              | None => positions st
              end;
            counter := counter st - 1 |}.

(** The messages of a connection, handled in order of arrival. *)
Fixpoint deliver (st : AppState) (evts : list OutgoingMessage.t)
  : option AppState :=
  match evts with
  | [] => Some st
  | message :: rest =>
      match onMessage st message with
      | Some st' => deliver st' rest
      | None => None
      end
  end.

End App.

(** The globe's [onRender]: the renderer's [state] as the callback leaves
    it, paired with the new value of the closure variable [phi]. *)
Definition onRender (positions : JsMap.t Marker) (phi : float)
  : GlobeState * float :=
  ({| markers := JsMap.values positions; phi := phi |}, (phi + 0.01)%float).

(** The angle handed to the renderer at each frame: [let phi = 0] when the
    globe is created, then one [onRender] per frame. *)
Fixpoint angle_at (positions : JsMap.t Marker) (frame : nat) : float :=
  match frame with
  | O => 0%float
  | S earlier => snd (onRender positions (angle_at positions earlier))
  end.

(** ** The handler as a transition relation

    One rule per branch of [onMessage]; a message tagged "add-marker" that
    carries no position has no transition. *)

Inductive handles (socket_id : string)
  : AppState -> OutgoingMessage.t -> AppState -> Prop :=
| handles_add_marker (st : AppState) (position : Position.t) :
    handles socket_id st (AddMarker position)
      {| positions :=
           JsMap.set (Position.id position) (marker_of socket_id position)
             (positions st);
         counter := counter st + 1 |}
| handles_removal (st : AppState) (type id : string) :
    type <> "add-marker" ->
    handles socket_id st (Removal type id)
      {| positions := JsMap.delete id (positions st);
         counter := counter st - 1 |}.

Inductive run (socket_id : string)
  : AppState -> list OutgoingMessage.t -> AppState -> Prop :=
| run_done (st : AppState) : run socket_id st [] st
| run_message (st st' st'' : AppState) (message : OutgoingMessage.t)
    (rest : list OutgoingMessage.t) :
    handles socket_id st message st' ->
    run socket_id st' rest st'' ->
    run socket_id st (message :: rest) st''.

(** ** What the specification says about event sequences *)

(** A message of the wire contract: the tag of the second shape is a string
    other than "add-marker". *)
Definition well_formed (message : OutgoingMessage.t) : Prop :=
  match message with
  | AddMarker _ => True
  | Removal type _ => type <> "add-marker"
  end.

(** The id a message is about. *)
Definition subject (message : OutgoingMessage.t) : string :=
  match message with
  | AddMarker position => Position.id position
  | Removal _ id => id
  end.

(** [id] has been added at [loc] and neither removed nor added again since:
    the last message about [id] is an "add-marker" with that location. *)
Definition present_at (id : string) (loc : float * float)
    (evts : list OutgoingMessage.t) : Prop :=
  exists before position after,
    evts = before ++ AddMarker position :: after /\
    Position.id position = id /\
    loc = (Position.lat position, Position.lng position) /\
    Forall (fun message => subject message <> id) after.

(** The same, computed: what the last message about [id] leaves behind. *)
Definition note (id : string) (seen : option (float * float))
    (message : OutgoingMessage.t) : option (float * float) :=
  match message with
  | AddMarker position =>
      if String.eqb (Position.id position) id
      then Some (Position.lat position, Position.lng position)
      else seen
  | Removal _ id' => if String.eqb id' id then None else seen
  end.

Definition latest_location (id : string) (evts : list OutgoingMessage.t)
  : option (float * float) :=
  fold_left (note id) evts None.

(** No "add-marker" for [id] occurs in [evts]. *)
Definition never_added (id : string) (evts : list OutgoingMessage.t) : Prop :=
  forall position, In (AddMarker position) evts -> Position.id position <> id.

(** The invariant of the data model: the counter is the number of markers. *)
Definition counter_is_cardinality (st : AppState) : Prop :=
  counter st = Z.of_nat (JsMap.size (positions st)).

(** ** Sample traffic

    A connection whose own id is "me": "abc" joins, the client's own marker
    arrives, "abc" leaves and joins again from elsewhere. *)

Definition me : string := "me".

Definition abc_joins : OutgoingMessage.t :=
  AddMarker {| Position.id := "abc"; Position.lat := 10; Position.lng := 20 |}.

Definition me_joins : OutgoingMessage.t :=
  AddMarker {| Position.id := "me"; Position.lat := 52.5; Position.lng := 13.25 |}.

Definition abc_leaves : OutgoingMessage.t := Removal "remove-marker" "abc".

Definition abc_returns : OutgoingMessage.t :=
  AddMarker {| Position.id := "abc"; Position.lat := 30; Position.lng := 40 |}.

Definition sample_traffic : list OutgoingMessage.t :=
  [abc_joins; me_joins; abc_leaves; abc_returns].

(** The state with "abc" on the globe. *)
Definition abc_shown : AppState :=
  {| counter := 1;
     positions :=
       [("abc", {| location := (10, 20)%float; size := 0.05 |})] |}.

(** The state with "abc" and the client's own marker on the globe. *)
Definition both_shown : AppState :=
  {| counter := 2;
     positions :=
       [("abc", {| location := (10, 20)%float; size := 0.05 |});
        ("me", {| location := (52.5, 13.25)%float; size := 0.1 |})] |}.

(** ** The "visitors online" badge

    The JSX [{counter !== 0 && (... {counter} {counter === 1 ? "visitor" :
    "visitors"} online ...)}]: nothing when the counter is zero, otherwise
    the text of the [live-text] span.  React prints a number child as
    JavaScript's [String(n)], for an integer its decimal digits after a
    minus sign when it is negative. *)

Definition number_text (n : Z) : string :=
  NilZero.string_of_int (Z.to_int n).

Definition live_text (counter : Z) : string :=
  String.append (number_text counter)
    (String.append " "
       (String.append (if (counter =? 1)%Z then "visitor" else "visitors")
          " online")).

Definition live_indicator (counter : Z) : option string :=
  if (counter =? 0)%Z then None else Some (live_text counter).

(** ** The page's callbacks on the event loop

    The browser runs one callback at a time: the socket's [onMessage] for
    each message, the globe's [onRender] for each animation frame.  An
    exception ends the handler call that raised it; [onMessage] raises
    while it evaluates the arguments of [positions.current.set], before the
    map or the counter is touched, so the state stays as it was and later
    callbacks run. *)

Inductive Callback : Type :=
| Message (message : OutgoingMessage.t)
| Frame.

(** What the page holds between callbacks: the component state, the closure
    variable [phi] of the effect, and the renderer states produced so far,
    oldest first. *)
Record Page : Type :=
  { app : AppState; angle : float; rendered : list GlobeState }.

(** [useState(0)], [useRef(new Map())] and [let phi = 0]. *)
Definition mounted : Page :=
  {| app := initial; angle := 0%float; rendered := [] |}.

Definition callback (socket_id : string) (page : Page) (c : Callback) : Page :=
  match c with
  | Message message =>
      {| app := match onMessage socket_id (app page) message with
                | Some st => st
                | None => app page
                end;
         angle := angle page;
         rendered := rendered page |}
  | Frame =>
      let (state, next) := onRender (positions (app page)) (angle page) in
      {| app := app page;
         angle := next;
         rendered := rendered page ++ [state] |}
  end.

Definition event_loop (socket_id : string) (page : Page)
    (callbacks : list Callback) : Page :=
  fold_left (callback socket_id) callbacks page.

(** The messages among the callbacks, and the number of frames. *)
Fixpoint messages_of (callbacks : list Callback) : list OutgoingMessage.t :=
  match callbacks with
  | [] => []
  | Message message :: rest => message :: messages_of rest
  | Frame :: rest => messages_of rest
  end.

Fixpoint frames_of (callbacks : list Callback) : nat :=
  match callbacks with
  | [] => O
  | Message _ :: rest => frames_of rest
  | Frame :: rest => S (frames_of rest)
  end.

(** The sample traffic with a frame after the first message and another
    after the third. *)
Definition sample_callbacks : list Callback :=
  [Message abc_joins; Frame; Message me_joins; Message abc_leaves; Frame;
   Message abc_returns].

(** ** Measures on a sequence of messages *)

(** The messages that take the first branch of [onMessage], and the others. *)
Definition is_add_marker (message : OutgoingMessage.t) : bool :=
  String.eqb (OutgoingMessage.type message) "add-marker".

Definition adds (evts : list OutgoingMessage.t) : nat :=
  List.length (filter is_add_marker evts).

Definition removals (evts : list OutgoingMessage.t) : nat :=
  List.length (filter (fun message => negb (is_add_marker message)) evts).

(** Whether [id] is on the globe after [evts], by the messages alone. *)
Definition shown (id : string) (evts : list OutgoingMessage.t) : bool :=
  match latest_location id evts with
  | Some _ => true
  | None => false
  end.

(** What a message adds to the counter beyond what it adds to the map: an
    "add-marker" for an id already shown counts its visitor once more, a
    removal for an id not shown takes away a visitor who is not there. *)
Definition surplus (before : list OutgoingMessage.t)
    (message : OutgoingMessage.t) : Z :=
  match message with
  | AddMarker position => if shown (Position.id position) before then 1 else 0
  | Removal _ id => if shown id before then 0 else -1
  end.

(** The surplus of every message of [evts], each after the ones before it. *)
Fixpoint drift (before evts : list OutgoingMessage.t) : Z :=
  match evts with
  | [] => 0
  | message :: rest => surplus before message + drift (before ++ [message]) rest
  end.

(** Traffic in which every "add-marker" is for an id not shown and every
    removal for an id that is shown. *)
Definition clean (evts : list OutgoingMessage.t) : Prop :=
  forall before message after,
    evts = before ++ message :: after -> surplus before message = 0%Z.

(** Every marker of the map has the size that [onMessage] gives its id. *)
Definition sized_by_id (socket_id : string) (st : AppState) : Prop :=
  forall id marker,
    In (id, marker) (positions st) ->
    size marker =
    if String.eqb id socket_id then 0.1%float else 0.05%float.

(** ** The place of a binary64 number among its kind

    Where a number stands in the order of the binary64 numbers, read off
    its sign, exponent and mantissa: finite numbers by exponent, then by
    mantissa, the infinities at the two ends.  A mantissa has at most 53
    bits and an exponent lies between -1074 and 971, so the places lie
    between [-(2048 * 2^53)] and [2048 * 2^53]. *)


(** ** A check of the rotation over a stretch of frames *)

(** One more frame: whether the angle has grown at every frame so far, and
    the angle of the next frame. *)
Definition turn (s : bool * float) : bool * float :=
  let next := snd (onRender JsMap.empty (snd s)) in
  (if (snd s <? next)%float then fst s else false, next).

(** ** Facts about [JsMap] *)

(** Case analysis on [a === b], with the outcome as an equation or a
    disequation between the keys. *)
Ltac key_cases a b :=
  let E := fresh "E" in
  destruct (String.eqb_spec a b) as [E | E].

Module JsMapFacts.
Import JsMap.

Section Facts.
Context {V : Type}.
Implicit Types (k : string) (v : V) (m : JsMap.t V).

Lemma get_set_same k v m : get k (set k v m) = Some v.
Proof.
  induction m as [|[k' v'] rest IH]; simpl.
  - now rewrite String.eqb_refl.
  - destruct (String.eqb k' k) eqn:E; simpl.
    + now rewrite String.eqb_refl.
    + now rewrite E.
Qed.

Lemma get_set_other k k0 v m :
  k0 <> k -> get k0 (set k v m) = get k0 m.
Proof.
  intros Hne. apply String.eqb_neq in Hne.
  induction m as [|[k' v'] rest IH]; simpl.
  - now rewrite String.eqb_sym, Hne.
  - destruct (String.eqb k' k) eqn:E; simpl.
    + apply String.eqb_eq in E; subst k'.
      now rewrite String.eqb_sym, Hne.
    + now rewrite IH.
Qed.

Lemma get_delete_same k m : get k (delete k m) = None.
Proof.
  induction m as [|[k' v'] rest IH]; simpl; trivial.
  destruct (String.eqb k' k) eqn:E; simpl; trivial.
  now rewrite E.
Qed.

Lemma get_delete_other k k0 m :
  k0 <> k -> get k0 (delete k m) = get k0 m.
Proof.
  intros Hne. apply String.eqb_neq in Hne.
  induction m as [|[k' v'] rest IH]; simpl; trivial.
  destruct (String.eqb k' k) eqn:E; simpl.
  - apply String.eqb_eq in E; subst k'.
    now rewrite String.eqb_sym, Hne.
  - now rewrite IH.
Qed.

Lemma get_None_keys k m : get k m = None <-> ~ In k (keys m).
Proof.
  induction m as [|[k' v'] rest IH]; simpl.
  - tauto.
  - key_cases k' k.
    + split; [discriminate | tauto].
    + tauto.
Qed.

Lemma get_Some_In k v m : get k m = Some v -> In (k, v) m.
Proof.
  induction m as [|[k' v'] rest IH]; simpl; [discriminate|].
  destruct (String.eqb k' k) eqn:E; auto.
  apply String.eqb_eq in E; subst k'.
  intros [= ->]. now left.
Qed.

Lemma In_get k v m : NoDup (keys m) -> In (k, v) m -> get k m = Some v.
Proof.
  induction m as [|[k' v'] rest IH]; simpl; [tauto|].
  intros Hnd [Heq | Hin].
  - injection Heq as -> ->. now rewrite String.eqb_refl.
  - inversion Hnd as [|? ? Hnotin Hrest]; subst.
    destruct (String.eqb k' k) eqn:E; auto.
    apply String.eqb_eq in E; subst k'.
    exfalso. apply Hnotin. change k with (fst (k, v)). now apply in_map.
Qed.

Lemma keys_set k k0 m v :
  In k0 (keys (set k v m)) <-> k0 = k \/ In k0 (keys m).
Proof.
  induction m as [|[k' v'] rest IH]; simpl.
  - intuition congruence.
  - destruct (String.eqb k' k) eqn:E; simpl.
    + apply String.eqb_eq in E; subst k'. intuition congruence.
    + rewrite IH. intuition congruence.
Qed.

Lemma keys_delete k k0 m :
  In k0 (keys (delete k m)) <-> k0 <> k /\ In k0 (keys m).
Proof.
  induction m as [|[k' v'] rest IH]; simpl.
  - tauto.
  - key_cases k' k; simpl; rewrite IH; intuition congruence.
Qed.

Lemma NoDup_set k v m : NoDup (keys m) -> NoDup (keys (set k v m)).
Proof.
  induction m as [|[k' v'] rest IH]; simpl; intros Hnd.
  - constructor; [tauto | constructor].
  - inversion Hnd as [|? ? Hnotin Hrest]; subst.
    key_cases k' k; simpl.
    + subst k'. now constructor.
    + constructor; auto.
      fold (keys (set k v rest)). rewrite keys_set. intuition congruence.
Qed.

Lemma NoDup_delete k m : NoDup (keys m) -> NoDup (keys (delete k m)).
Proof.
  induction m as [|[k' v'] rest IH]; simpl; intros Hnd; trivial.
  inversion Hnd as [|? ? Hnotin Hrest]; subst.
  destruct (String.eqb k' k) eqn:E; simpl; auto.
  constructor; auto.
  fold (keys (delete k rest)). rewrite keys_delete. tauto.
Qed.

Lemma delete_absent k m : get k m = None -> delete k m = m.
Proof.
  induction m as [|[k' v'] rest IH]; simpl; trivial.
  destruct (String.eqb k' k) eqn:E; [discriminate|].
  intros H. now rewrite IH.
Qed.

Lemma combine_keys_values m : combine (keys m) (values m) = m.
Proof.
  unfold keys, values.
  induction m as [|[k' v'] rest IH]; simpl; trivial.
  now rewrite IH.
Qed.

Lemma size_set k v m :
  size (set k v m) =
  match get k m with Some _ => size m | None => S (size m) end.
Proof.
  induction m as [|[k' v'] rest IH]; simpl; trivial.
  destruct (String.eqb k' k) eqn:E; simpl; trivial.
  fold (size (set k v rest)). rewrite IH.
  now destruct (get k rest).
Qed.

Lemma delete_filter k m :
  delete k m = filter (fun entry => negb (String.eqb (fst entry) k)) m.
Proof.
  induction m as [|[k' v'] rest IH]; simpl; trivial.
  destruct (String.eqb k' k); simpl; now rewrite IH.
Qed.

Lemma size_delete_present k v m :
  NoDup (keys m) -> get k m = Some v -> S (size (delete k m)) = size m.
Proof.
  induction m as [|[k' v'] rest IH]; simpl; [discriminate|].
  intros Hnd. inversion Hnd as [|? ? Hnotin Hrest]; subst.
  destruct (String.eqb k' k) eqn:E; simpl.
  - apply String.eqb_eq in E; subst k'. intros _.
    rewrite delete_absent; trivial. now apply get_None_keys.
  - intros Hget. f_equal. now apply IH.
Qed.

End Facts.

End JsMapFacts.

(** ** The message handler, one message at a time *)

Section Handler.

Variable socket_id : string.

Implicit Types (st : AppState) (message : OutgoingMessage.t).

Lemma onMessage_add_marker st position :
  onMessage socket_id st (AddMarker position) =
  Some {| positions :=
            JsMap.set (Position.id position) (marker_of socket_id position)
              (positions st);
          counter := counter st + 1 |}.
Proof. reflexivity. Qed.

Lemma onMessage_removal st type id :
  type <> "add-marker" ->
  onMessage socket_id st (Removal type id) =
  Some {| positions := JsMap.delete id (positions st);
          counter := counter st - 1 |}.
Proof.
  intros Htag. apply String.eqb_neq in Htag.
  unfold onMessage; simpl. now rewrite Htag.
Qed.

Lemma onMessage_untagged_add st id :
  onMessage socket_id st (Removal "add-marker" id) = None.
Proof. reflexivity. Qed.

(** A message of the wire contract is handled without an exception. *)
Lemma onMessage_well_formed st message :
  well_formed message -> exists st', onMessage socket_id st message = Some st'.
Proof.
  destruct message as [position | type id]; simpl; intros Hwf.
  - eexists. apply onMessage_add_marker.
  - eexists. now apply onMessage_removal.
Qed.

Lemma onMessage_Some_well_formed st message st' :
  onMessage socket_id st message = Some st' -> well_formed message.
Proof.
  destruct message as [position | type id]; simpl; trivial.
  intros H Htag; subst type. discriminate H.
Qed.

(** The handler and its transition relation agree. *)
Lemma handles_iff_onMessage st message st' :
  handles socket_id st message st' <->
  onMessage socket_id st message = Some st'.
Proof.
  split.
  - intros H; destruct H as [st position | st type id Htag].
    + apply onMessage_add_marker.
    + now apply onMessage_removal.
  - intros H. pose proof (onMessage_Some_well_formed _ _ _ H) as Hwf.
    destruct message as [position | type id]; simpl in Hwf.
    + rewrite onMessage_add_marker in H. injection H as <-. constructor.
    + rewrite (onMessage_removal _ _ _ Hwf) in H. injection H as <-.
      now constructor.
Qed.

(** C2: an "add-marker" message stores, under the id of its position, a
    marker whose size is 0.1 when that id is the socket's own id, and 0.05
    when it is any other id. *)
Theorem add_marker_size st position :
  exists st' marker,
    onMessage socket_id st (AddMarker position) = Some st' /\
    JsMap.get (Position.id position) (positions st') = Some marker /\
    (Position.id position = socket_id -> size marker = 0.1%float) /\
    (Position.id position <> socket_id -> size marker = 0.05%float).
Proof.
  exists {| positions :=
              JsMap.set (Position.id position) (marker_of socket_id position)
                (positions st);
            counter := counter st + 1 |}, (marker_of socket_id position).
  split; [apply onMessage_add_marker|].
  split; [apply JsMapFacts.get_set_same|].
  unfold marker_of; simpl. split.
  - intros ->. now rewrite String.eqb_refl.
  - intros Hother. apply String.eqb_neq in Hother. now rewrite Hother.
Qed.

(** C4: every "add-marker" message raises the counter by exactly one,
    whether or not its id is already in the map, and every removal lowers
    it by exactly one, whether or not its id is in the map. *)
Theorem counter_moves_by_one st :
  (forall position,
      exists st', onMessage socket_id st (AddMarker position) = Some st' /\
                  counter st' = (counter st + 1)%Z) /\
  (forall type id,
      type <> "add-marker" ->
      exists st', onMessage socket_id st (Removal type id) = Some st' /\
                  counter st' = (counter st - 1)%Z).
Proof.
  split.
  - intros position. eexists. split; [apply onMessage_add_marker|reflexivity].
  - intros type id Htag. eexists.
    split; [now apply onMessage_removal|reflexivity].
Qed.

(** C7: a message whose tag is any string other than "add-marker" is
    handled as a removal: it carries an id, and the handler deletes the
    entry of that id from the map.  Afterwards the id has no entry, every
    other id has the marker it had, and the map is the old one without the
    entries of that id, in the old order. *)
Theorem other_tag_is_removal st message :
  OutgoingMessage.type message <> "add-marker" ->
  exists id st',
    OutgoingMessage.id message = Some id /\
    onMessage socket_id st message = Some st' /\
    positions st' = JsMap.delete id (positions st) /\
    JsMap.get id (positions st') = None /\
    (forall k, k <> id ->
       JsMap.get k (positions st') = JsMap.get k (positions st)) /\
    positions st' =
      filter (fun entry => negb (String.eqb (fst entry) id)) (positions st).
Proof.
  destruct message as [position | type id]; simpl; intros Htag.
  - now contradiction Htag.
  - exists id. eexists. split; [reflexivity|].
    split; [now apply onMessage_removal|]. simpl.
    split; [reflexivity|].
    split; [apply JsMapFacts.get_delete_same|].
    split.
    + intros k Hk. now apply JsMapFacts.get_delete_other.
    + apply JsMapFacts.delete_filter.
Qed.

(** C9: handling one message about id X leaves every entry under another
    key as it was: present or absent as before, with the same marker
    (location and size). *)
Theorem other_entries_untouched st message k :
  well_formed message ->
  k <> subject message ->
  exists st',
    onMessage socket_id st message = Some st' /\
    JsMap.get k (positions st') = JsMap.get k (positions st).
Proof.
  intros Hwf Hk.
  destruct message as [position | type id]; simpl in *; eexists.
  - split; [apply onMessage_add_marker|].
    now apply JsMapFacts.get_set_other.
  - split; [now apply onMessage_removal|].
    now apply JsMapFacts.get_delete_other.
Qed.

(** What one message does to the location shown for [id]. *)
Lemma onMessage_location st message st' id :
  onMessage socket_id st message = Some st' ->
  option_map location (JsMap.get id (positions st')) =
  note id (option_map location (JsMap.get id (positions st))) message.
Proof.
  intros H. apply handles_iff_onMessage in H.
  destruct H as [st position | st type id' Htag]; simpl.
  - key_cases (Position.id position) id.
    + subst id. now rewrite JsMapFacts.get_set_same.
    + rewrite JsMapFacts.get_set_other; auto.
  - key_cases id' id.
    + subst id'. now rewrite JsMapFacts.get_delete_same.
    + rewrite JsMapFacts.get_delete_other; auto.
Qed.

Lemma onMessage_NoDup st message st' :
  onMessage socket_id st message = Some st' ->
  NoDup (JsMap.keys (positions st)) -> NoDup (JsMap.keys (positions st')).
Proof.
  intros H. apply handles_iff_onMessage in H.
  destruct H as [st position | st type id Htag]; simpl.
  - apply JsMapFacts.NoDup_set.
  - apply JsMapFacts.NoDup_delete.
Qed.

(** A key of the map after a message was there before or has just been
    added. *)
Lemma onMessage_keys st message st' k :
  onMessage socket_id st message = Some st' ->
  In k (JsMap.keys (positions st')) ->
  In k (JsMap.keys (positions st)) \/
  exists position, message = AddMarker position /\ Position.id position = k.
Proof.
  intros H. apply handles_iff_onMessage in H.
  destruct H as [st position | st type id Htag]; simpl.
  - rewrite JsMapFacts.keys_set. intros [-> | Hin]; eauto.
  - rewrite JsMapFacts.keys_delete. tauto.
Qed.

End Handler.

(** ** The specification's reading of an event sequence *)

Section Presence.

Variable id : string.

Lemma latest_location_snoc evts message :
  latest_location id (evts ++ [message]) =
  note id (latest_location id evts) message.
Proof. unfold latest_location. now rewrite fold_left_app. Qed.

Lemma note_other seen message :
  subject message <> id -> note id seen message = seen.
Proof.
  destruct message as [position | type id']; simpl; intros Hne;
    apply String.eqb_neq in Hne; now rewrite Hne.
Qed.

Lemma present_at_snoc_other loc evts message :
  subject message <> id ->
  present_at id loc evts -> present_at id loc (evts ++ [message]).
Proof.
  intros Hne (before & position & after & -> & Hid & Hloc & Hafter).
  exists before, position, (after ++ [message]).
  rewrite <- app_assoc. simpl. repeat split; trivial.
  apply Forall_app. split; trivial. now constructor.
Qed.

(** The computed reading and the declarative one agree. *)
Lemma latest_location_present_at loc evts :
  latest_location id evts = Some loc <-> present_at id loc evts.
Proof.
  revert loc. induction evts as [|message evts IH] using rev_ind; intros loc.
  - split; [discriminate|].
    intros (before & position & after & H & _). now destruct before.
  - rewrite latest_location_snoc. split.
    + destruct message as [position | type id']; simpl.
      * key_cases (Position.id position) id.
        -- intros [= <-].
           exists evts, position, []. repeat split; trivial.
        -- intros H.
           apply present_at_snoc_other; trivial. now apply IH.
      * key_cases id' id; [discriminate|]. intros H.
        apply present_at_snoc_other; trivial. now apply IH.
    + intros (before & position & after & Heq & Hid & Hloc & Hafter).
      destruct after as [|last after' _] using rev_ind.
      * apply app_inj_tail in Heq as [-> ->]. simpl.
        apply String.eqb_eq in Hid. now rewrite Hid, Hloc.
      * change (before ++ AddMarker position :: after' ++ [last])
          with (before ++ (AddMarker position :: after') ++ [last]) in Heq.
        rewrite app_assoc in Heq. apply app_inj_tail in Heq as [-> ->].
        apply Forall_app in Hafter as [Hafter' Hlast].
        apply Forall_inv in Hlast.
        rewrite note_other; trivial. apply IH.
        now exists before, position, after'.
Qed.

End Presence.

(** ** The message handler over a whole connection *)

Section Connection.

Variable socket_id : string.

Implicit Types (st : AppState) (evts : list OutgoingMessage.t).

Lemma deliver_well_formed evts : forall st,
  Forall well_formed evts -> exists st', deliver socket_id st evts = Some st'.
Proof.
  induction evts as [|message rest IH]; intros st Hwf; simpl.
  - now exists st.
  - inversion Hwf as [|? ? Hmessage Hrest]; subst.
    destruct (onMessage_well_formed socket_id st message Hmessage)
      as [st1 ->].
    now apply IH.
Qed.

Lemma run_iff_deliver evts : forall st st',
  run socket_id st evts st' <-> deliver socket_id st evts = Some st'.
Proof.
  induction evts as [|message rest IH]; intros st st'; simpl.
  - split.
    + intros H; inversion H; now subst.
    + intros [= ->]. constructor.
  - split.
    + intros H; inversion H as [|? st1 ? ? ? Hstep Hrest]; subst.
      apply handles_iff_onMessage in Hstep. rewrite Hstep. now apply IH.
    + destruct (onMessage socket_id st message) as [st1|] eqn:E;
        [|discriminate].
      intros H. apply run_message with st1.
      * now apply handles_iff_onMessage.
      * now apply IH.
Qed.

Lemma handles_deterministic st message st1 st2 :
  handles socket_id st message st1 ->
  handles socket_id st message st2 -> st1 = st2.
Proof.
  intros H1 H2. inversion H1; subst; inversion H2; now subst.
Qed.

Lemma run_deterministic st evts st1 :
  run socket_id st evts st1 ->
  forall st2, run socket_id st evts st2 -> st1 = st2.
Proof.
  induction 1 as [st | st sta st1 message rest Hstep Hrest IH];
    intros st2 H2; inversion H2 as [|? stb ? ? ? Hstep' Hrest']; subst.
  - reflexivity.
  - rewrite (handles_deterministic _ _ _ _ Hstep Hstep') in IH.
    now apply IH.
Qed.

Lemma deliver_NoDup evts : forall st st',
  deliver socket_id st evts = Some st' ->
  NoDup (JsMap.keys (positions st)) -> NoDup (JsMap.keys (positions st')).
Proof.
  induction evts as [|message rest IH]; intros st st'; simpl.
  - now intros [= ->].
  - destruct (onMessage socket_id st message) as [st1|] eqn:E;
      [|discriminate].
    intros H Hnd. apply (IH _ _ H).
    now apply (onMessage_NoDup socket_id st message).
Qed.

Lemma deliver_location evts id : forall st st',
  deliver socket_id st evts = Some st' ->
  option_map location (JsMap.get id (positions st')) =
  fold_left (note id) evts
    (option_map location (JsMap.get id (positions st))).
Proof.
  induction evts as [|message rest IH]; intros st st'; simpl.
  - now intros [= ->].
  - destruct (onMessage socket_id st message) as [st1|] eqn:E;
      [|discriminate].
    intros H. rewrite (IH _ _ H).
    now rewrite (onMessage_location socket_id st message st1).
Qed.

Lemma deliver_keys evts k : forall st st',
  deliver socket_id st evts = Some st' ->
  In k (JsMap.keys (positions st')) ->
  In k (JsMap.keys (positions st)) \/
  exists position, In (AddMarker position) evts /\ Position.id position = k.
Proof.
  induction evts as [|message rest IH]; intros st st'; simpl.
  - intros [= ->]. now left.
  - destruct (onMessage socket_id st message) as [st1|] eqn:E;
      [|discriminate].
    intros H Hin.
    destruct (IH _ _ H Hin) as [Hin1 | (position & Hpos & Hid)].
    + destruct (onMessage_keys socket_id _ _ _ _ E Hin1)
        as [Hin0 | (position & -> & Hid)]; eauto.
    + eauto.
Qed.

End Connection.

(** ** The renderer's snapshot *)

Lemma onRender_markers (positions : JsMap.t Marker) (phi : float) :
  markers (fst (onRender positions phi)) = JsMap.values positions.
Proof. reflexivity. Qed.

(** C3: after any interleaving of adds and removals from the empty map, the
    snapshot that [onRender] takes holds one marker per key of the map, the
    keys are distinct, and the ids and locations found there are exactly the
    ids added and not removed since, each with the location of its latest
    "add-marker".  The snapshot is the list of the map's values and has as
    many markers as the map has keys: it holds nothing besides. *)
Theorem snapshot_after_events (socket_id : string)
    (evts : list OutgoingMessage.t) (phi : float) :
  Forall well_formed evts ->
  exists st,
    deliver socket_id initial evts = Some st /\
    NoDup (JsMap.keys (positions st)) /\
    markers (fst (onRender (positions st) phi)) =
      JsMap.values (positions st) /\
    List.length (markers (fst (onRender (positions st) phi))) =
      List.length (JsMap.keys (positions st)) /\
    forall id loc,
      (exists marker,
          In (id, marker)
             (combine (JsMap.keys (positions st))
                      (markers (fst (onRender (positions st) phi)))) /\
          location marker = loc)
      <-> present_at id loc evts.
Proof.
  intros Hwf.
  destruct (deliver_well_formed socket_id evts initial Hwf) as [st Hst].
  assert (Hnd : NoDup (JsMap.keys (positions st))).
  { apply (deliver_NoDup socket_id evts initial st Hst). constructor. }
  exists st. split; [assumption|]. split; [assumption|].
  split; [apply onRender_markers|].
  split.
  { rewrite onRender_markers. unfold JsMap.values, JsMap.keys.
    now rewrite !length_map. }
  intros id loc.
  rewrite onRender_markers, JsMapFacts.combine_keys_values.
  rewrite <- latest_location_present_at.
  pose proof (deliver_location socket_id evts id initial st Hst) as Hloc.
  simpl in Hloc. fold (latest_location id evts) in Hloc.
  split.
  - intros (marker & Hin & <-).
    apply JsMapFacts.In_get in Hin; trivial.
    rewrite Hin in Hloc. simpl in Hloc. now symmetry.
  - intros Hlatest. rewrite Hlatest in Hloc.
    destruct (JsMap.get id (positions st)) as [marker|] eqn:Hget;
      [|discriminate].
    exists marker. split.
    + now apply JsMapFacts.get_Some_In.
    + simpl in Hloc. now injection Hloc.
Qed.

(** ** The counter against the size of the map *)

(** C1 (the counter is declared as "the number of markers we're currently
    displaying"; the handler does not keep it so): after two "add-marker"
    messages for the same id the map holds one marker and the counter
    reads 2. *)
Theorem repeated_add_breaks_counter (socket_id : string) :
  exists st,
    deliver socket_id initial
      [AddMarker {| Position.id := "abc"; Position.lat := 10;
                    Position.lng := 20 |};
       AddMarker {| Position.id := "abc"; Position.lat := 10;
                    Position.lng := 20 |}] = Some st /\
    JsMap.size (positions st) = 1%nat /\
    counter st = 2%Z /\
    ~ counter_is_cardinality st.
Proof.
  eexists. split; [reflexivity|]. simpl.
  split; [reflexivity|]. split; [reflexivity|].
  unfold counter_is_cardinality; simpl. discriminate.
Qed.

(** Where the counter does follow the map: an "add-marker" for an id that
    is not in the map, and a removal for an id that is. *)
Lemma counter_kept_on_fresh_add (socket_id : string) (st : AppState)
    (position : Position.t) :
  JsMap.get (Position.id position) (positions st) = None ->
  counter_is_cardinality st ->
  exists st',
    onMessage socket_id st (AddMarker position) = Some st' /\
    counter_is_cardinality st'.
Proof.
  unfold counter_is_cardinality. intros Hfresh Hinv.
  eexists. split; [apply onMessage_add_marker|]. simpl.
  rewrite JsMapFacts.size_set, Hfresh, Hinv. lia.
Qed.

Lemma counter_kept_on_removal_of_present (socket_id : string) (st : AppState)
    (type id : string) (marker : Marker) :
  type <> "add-marker" ->
  NoDup (JsMap.keys (positions st)) ->
  JsMap.get id (positions st) = Some marker ->
  counter_is_cardinality st ->
  exists st',
    onMessage socket_id st (Removal type id) = Some st' /\
    counter_is_cardinality st'.
Proof.
  unfold counter_is_cardinality. intros Htag Hnd Hget Hinv.
  eexists. split; [now apply onMessage_removal|]. simpl.
  rewrite Hinv, <- (JsMapFacts.size_delete_present id marker _ Hnd Hget). lia.
Qed.

(** C5 (the count of markers the page keeps must never go negative; the
    handler lets it): a removal for an id that was never added raises
    nothing and leaves the map empty, but the counter, declared as "the
    number of markers we're currently displaying", reads -1 and the badge
    shows "-1 visitors online". *)
Theorem orphan_removal_breaks_counter (socket_id : string) :
  exists st,
    deliver socket_id initial [Removal "remove-marker" "abc"] = Some st /\
    JsMap.size (positions st) = 0%nat /\
    counter st = (-1)%Z /\
    live_indicator (counter st) = Some "-1 visitors online" /\
    ~ counter_is_cardinality st.
Proof.
  eexists. split; [reflexivity|]. simpl.
  split; [reflexivity|]. split; [reflexivity|]. split; [reflexivity|].
  unfold counter_is_cardinality; simpl. discriminate.
Qed.

(** The map itself takes no harm from such a removal: after any traffic, a
    removal for an id that was never added raises nothing and leaves the
    map as it was. *)
Lemma orphan_removal_is_harmless (socket_id : string)
    (evts : list OutgoingMessage.t) :
  Forall well_formed evts ->
  exists st,
    deliver socket_id initial evts = Some st /\
    forall type id,
      type <> "add-marker" ->
      never_added id evts ->
      exists st',
        onMessage socket_id st (Removal type id) = Some st' /\
        positions st' = positions st.
Proof.
  intros Hwf.
  destruct (deliver_well_formed socket_id evts initial Hwf) as [st Hst].
  exists st. split; [assumption|].
  intros type id Htag Hnever.
  eexists. split; [now apply onMessage_removal|]. simpl.
  apply JsMapFacts.delete_absent, JsMapFacts.get_None_keys.
  intros Hin.
  destruct (deliver_keys socket_id evts id initial st Hst Hin)
    as [[] | (position & Hpos & Hid)].
  now apply (Hnever position).
Qed.

(** C6: from the empty map, the message
    [{"type":"add-marker","position":{"id":"abc","lat":10,"lng":20}}] gives
    a snapshot of one marker at [10, 20] of size 0.05 or 0.1 and a counter
    of 1; the message [{"type":"remove","id":"abc"}] after it gives an empty
    snapshot and a counter of 0. *)
Theorem add_then_remove_scenario (socket_id : string) (phi : float) :
  exists st1 st2 sz,
    onMessage socket_id initial
      (AddMarker {| Position.id := "abc"; Position.lat := 10;
                    Position.lng := 20 |}) = Some st1 /\
    markers (fst (onRender (positions st1) phi)) =
      [{| location := (10%float, 20%float); size := sz |}] /\
    (sz = 0.05%float \/ sz = 0.1%float) /\
    counter st1 = 1%Z /\
    onMessage socket_id st1 (Removal "remove" "abc") = Some st2 /\
    markers (fst (onRender (positions st2) phi)) = [] /\
    counter st2 = 0%Z.
Proof.
  eexists. eexists.
  exists (if String.eqb "abc" socket_id then 0.1%float else 0.05%float).
  split; [reflexivity|]. split; [reflexivity|].
  split; [destruct (String.eqb "abc" socket_id); auto|].
  repeat split.
Qed.

(** C10: for a fixed socket id and a fixed sequence of well-formed messages,
    a run from the empty map and the zero counter exists, and any two runs
    end with the same map and the same counter. *)
Theorem handler_is_deterministic (socket_id : string)
    (evts : list OutgoingMessage.t) :
  Forall well_formed evts ->
  (exists st, run socket_id initial evts st) /\
  forall st1 st2,
    run socket_id initial evts st1 ->
    run socket_id initial evts st2 ->
    positions st1 = positions st2 /\ counter st1 = counter st2.
Proof.
  intros Hwf. split.
  - destruct (deliver_well_formed socket_id evts initial Hwf) as [st Hst].
    exists st. now apply run_iff_deliver.
  - intros st1 st2 H1 H2.
    now rewrite (run_deterministic socket_id initial evts st1 H1 st2 H2).
Qed.

(** ** The render loop

    The angle is a binary64 number and [phi += 0.01] is a rounded addition:
    the callback hands the current angle to the renderer and keeps the
    rounded sum for the next frame. *)

Lemma onRender_phi (positions : JsMap.t Marker) (angle : float) :
  phi (fst (onRender positions angle)) = angle /\
  snd (onRender positions angle) = (angle + 0.01)%float.
Proof. split; reflexivity. Qed.

Lemma angle_at_next (positions : JsMap.t Marker) (frame : nat) :
  angle_at positions (S frame) = (angle_at positions frame + 0.01)%float.
Proof. reflexivity. Qed.

Example angle_at_first_frames :
  map (angle_at JsMap.empty) [0; 1; 2; 3]%nat =
  [0; 0.01; 0.02; 0.03]%float.
Proof. reflexivity. Qed.

(** Rounding shows from the seventh frame on, and a large enough angle
    absorbs the increment. *)
Example angle_at_frame_seven :
  angle_at JsMap.empty 7 = 0.070000000000000007%float.
Proof. reflexivity. Qed.

Example large_angle_absorbs_increment :
  (9007199254740992 + 0.01 = 9007199254740992)%float.
Proof. reflexivity. Qed.

(** ** The theorems at the sample traffic *)

Example sample_traffic_delivered :
  deliver me initial sample_traffic =
  Some {| counter := 2;
          positions :=
            [("me", {| location := (52.5, 13.25)%float; size := 0.1 |});
             ("abc", {| location := (30, 40)%float; size := 0.05 |})] |}.
Proof. reflexivity. Qed.

Lemma sample_traffic_well_formed : Forall well_formed sample_traffic.
Proof.
  repeat (apply Forall_cons; [simpl; try exact I; try discriminate|]).
  apply Forall_nil.
Defined.

Lemma add_marker_size_witness :
  (exists st' marker,
      onMessage me initial me_joins = Some st' /\
      JsMap.get "me" (positions st') = Some marker /\
      size marker = 0.1%float) /\
  (exists st' marker,
      onMessage me initial abc_joins = Some st' /\
      JsMap.get "abc" (positions st') = Some marker /\
      size marker = 0.05%float).
Proof.
  split.
  - destruct (add_marker_size me initial
                {| Position.id := "me"; Position.lat := 52.5;
                   Position.lng := 13.25 |})
      as (st' & marker & Hst & Hget & Hself & _).
    exists st', marker. repeat split; trivial. now apply Hself.
  - destruct (add_marker_size me initial
                {| Position.id := "abc"; Position.lat := 10;
                   Position.lng := 20 |})
      as (st' & marker & Hst & Hget & _ & Hother).
    exists st', marker. repeat split; trivial. apply Hother. discriminate.
Defined.

Lemma snapshot_after_events_witness :
  Forall well_formed sample_traffic /\
  exists st,
    deliver me initial sample_traffic = Some st /\
    NoDup (JsMap.keys (positions st)) /\
    markers (fst (onRender (positions st) 0%float)) =
      JsMap.values (positions st) /\
    List.length (markers (fst (onRender (positions st) 0%float))) =
      List.length (JsMap.keys (positions st)) /\
    forall id loc,
      (exists marker,
          In (id, marker)
             (combine (JsMap.keys (positions st))
                      (markers (fst (onRender (positions st) 0%float)))) /\
          location marker = loc)
      <-> present_at id loc sample_traffic.
Proof.
  split; [exact sample_traffic_well_formed|].
  exact (snapshot_after_events me sample_traffic 0%float
           sample_traffic_well_formed).
Defined.

Lemma counter_moves_by_one_witness :
  (exists st', onMessage me initial abc_joins = Some st' /\
               counter st' = 1%Z) /\
  (exists st', onMessage me initial abc_leaves = Some st' /\
               counter st' = (-1)%Z).
Proof.
  destruct (counter_moves_by_one me initial) as [Hadd Hremove]. split.
  - exact (Hadd {| Position.id := "abc"; Position.lat := 10;
                   Position.lng := 20 |}).
  - apply (Hremove "remove-marker" "abc"). discriminate.
Defined.

Lemma orphan_removal_is_harmless_witness :
  Forall well_formed sample_traffic /\
  exists st,
    deliver me initial sample_traffic = Some st /\
    forall type id,
      type <> "add-marker" ->
      never_added id sample_traffic ->
      exists st',
        onMessage me st (Removal type id) = Some st' /\
        positions st' = positions st.
Proof.
  split; [exact sample_traffic_well_formed|].
  exact (orphan_removal_is_harmless me sample_traffic
           sample_traffic_well_formed).
Defined.

Lemma other_tag_is_removal_witness :
  OutgoingMessage.type abc_leaves <> "add-marker" /\
  JsMap.get "abc" (positions both_shown) =
    Some {| location := (10, 20)%float; size := 0.05 |} /\
  exists st',
    onMessage me both_shown abc_leaves = Some st' /\
    JsMap.get "abc" (positions st') = None /\
    JsMap.get "me" (positions st') =
      Some {| location := (52.5, 13.25)%float; size := 0.1 |} /\
    positions st' =
      [("me", {| location := (52.5, 13.25)%float; size := 0.1 |})].
Proof.
  assert (Htag : OutgoingMessage.type abc_leaves <> "add-marker")
    by discriminate.
  split; [exact Htag|]. split; [reflexivity|].
  destruct (other_tag_is_removal me both_shown abc_leaves Htag)
    as (id & st' & Hid & Hst & _ & Hgone & Hframe & Hfilter).
  injection Hid as <-.
  exists st'. split; [exact Hst|]. split; [exact Hgone|]. split.
  - rewrite (Hframe "me"); [reflexivity | discriminate].
  - exact Hfilter.
Defined.

Lemma other_entries_untouched_witness :
  (well_formed me_joins /\
   "abc" <> subject me_joins /\
   exists st',
     onMessage me abc_shown me_joins = Some st' /\
     JsMap.get "abc" (positions st') =
       Some {| location := (10, 20)%float; size := 0.05 |}) /\
  (well_formed abc_leaves /\
   "me" <> subject abc_leaves /\
   exists st',
     onMessage me both_shown abc_leaves = Some st' /\
     JsMap.get "me" (positions st') =
       Some {| location := (52.5, 13.25)%float; size := 0.1 |}).
Proof.
  split.
  - split; [exact I|]. split; [discriminate|].
    apply (other_entries_untouched me abc_shown me_joins "abc").
    + exact I.
    + discriminate.
  - split; [discriminate|]. split; [discriminate|].
    apply (other_entries_untouched me both_shown abc_leaves "me").
    + discriminate.
    + discriminate.
Defined.

Lemma handler_is_deterministic_witness :
  Forall well_formed sample_traffic /\
  (exists st, run me initial sample_traffic st) /\
  forall st1 st2,
    run me initial sample_traffic st1 ->
    run me initial sample_traffic st2 ->
    positions st1 = positions st2 /\ counter st1 = counter st2.
Proof.
  split; [exact sample_traffic_well_formed|].
  exact (handler_is_deterministic me sample_traffic
           sample_traffic_well_formed).
Defined.

(** ** More on [JsMap]: where entries sit *)

Module JsMapOrder.
Import JsMap.

Section Order.
Context {V : Type}.
Implicit Types (k : string) (v : V) (m : JsMap.t V).

Lemma set_absent k v m : get k m = None -> set k v m = m ++ [(k, v)].
Proof.
  induction m as [|[k' v'] rest IH]; simpl; trivial.
  key_cases k' k; [discriminate|].
  intros H. now rewrite IH.
Qed.

Lemma keys_set_present k v old m :
  get k m = Some old -> keys (set k v m) = keys m.
Proof.
  unfold keys.
  induction m as [|[k' v'] rest IH]; simpl; [discriminate|].
  key_cases k' k; simpl.
  - now subst k'.
  - intros H. now rewrite IH.
Qed.

Lemma set_set k v1 v2 m : set k v2 (set k v1 m) = set k v2 m.
Proof.
  induction m as [|[k' v'] rest IH]; simpl.
  - now rewrite String.eqb_refl.
  - destruct (String.eqb k' k) eqn:E; simpl.
    + now rewrite String.eqb_refl.
    + now rewrite E, IH.
Qed.

Lemma delete_set_absent k v m : get k m = None -> delete k (set k v m) = m.
Proof.
  induction m as [|[k' v'] rest IH]; simpl.
  - now rewrite String.eqb_refl.
  - destruct (String.eqb k' k) eqn:E; [discriminate|].
    intros H. simpl. now rewrite E, IH.
Qed.

Lemma delete_set_present k v old m :
  get k m = Some old -> delete k (set k v m) = delete k m.
Proof.
  induction m as [|[k' v'] rest IH]; simpl; [discriminate|].
  destruct (String.eqb k' k) eqn:E; simpl.
  - now rewrite String.eqb_refl.
  - intros H. now rewrite E, IH.
Qed.

Lemma delete_delete k1 k2 m :
  delete k1 (delete k2 m) = delete k2 (delete k1 m).
Proof.
  induction m as [|[k' v'] rest IH]; simpl; trivial.
  destruct (String.eqb k' k1) eqn:E1, (String.eqb k' k2) eqn:E2;
    simpl; rewrite ?E1, ?E2; now rewrite ?IH.
Qed.

Lemma set_delete k1 v k2 m :
  k1 <> k2 -> set k1 v (delete k2 m) = delete k2 (set k1 v m).
Proof.
  intros Hne. induction m as [|[k' v'] rest IH]; simpl.
  - apply String.eqb_neq in Hne. now rewrite Hne.
  - key_cases k' k2; key_cases k' k1; simpl.
    + congruence.
    + destruct (String.eqb_spec k' k2); [|contradiction]. exact IH.
    + destruct (String.eqb_spec k' k1); [|contradiction].
      destruct (String.eqb_spec k1 k2); [contradiction|]. reflexivity.
    + destruct (String.eqb_spec k' k1); [contradiction|].
      destruct (String.eqb_spec k' k2); [contradiction|]. now rewrite IH.
Qed.

Lemma In_set k v k0 v0 m :
  In (k0, v0) (set k v m) -> (k0 = k /\ v0 = v) \/ In (k0, v0) m.
Proof.
  induction m as [|[k' v'] rest IH]; simpl.
  - intros [[= <- <-] | []]. now left.
  - key_cases k' k; simpl.
    + intros [[= <- <-] | H]; auto.
    + intros [H | H]; auto. destruct (IH H); auto.
Qed.

Lemma In_delete k k0 v0 m : In (k0, v0) (delete k m) -> In (k0, v0) m.
Proof.
  induction m as [|[k' v'] rest IH]; simpl; trivial.
  key_cases k' k; simpl; intuition.
Qed.

Lemma size_set_le k v m : (size (set k v m) <= S (size m))%nat.
Proof. rewrite JsMapFacts.size_set. destruct (get k m); lia. Qed.

Lemma size_delete_le k m : (size (delete k m) <= size m)%nat.
Proof.
  unfold size. induction m as [|[k' v'] rest IH]; simpl; trivial.
  destruct (String.eqb k' k); simpl; lia.
Qed.

End Order.

End JsMapOrder.

(** ** How messages compose *)

Section Composition.

Variable socket_id : string.

Implicit Types (st : AppState) (message : OutgoingMessage.t).

(** An "add-marker" for an id that is already on the globe replaces its
    marker where it stands: the ids of the map and their order stay, no
    marker is added, and the id now has the marker of the new position. *)
Theorem add_marker_again_replaces_in_place st position old :
  JsMap.get (Position.id position) (positions st) = Some old ->
  exists st',
    onMessage socket_id st (AddMarker position) = Some st' /\
    JsMap.keys (positions st') = JsMap.keys (positions st) /\
    List.length (markers (fst (onRender (positions st') 0%float))) =
      List.length (markers (fst (onRender (positions st) 0%float))) /\
    JsMap.get (Position.id position) (positions st') =
      Some (marker_of socket_id position).
Proof.
  intros Hold. eexists. split; [apply onMessage_add_marker|]. simpl.
  assert (Hkeys : JsMap.keys
                    (JsMap.set (Position.id position)
                       (marker_of socket_id position) (positions st)) =
                  JsMap.keys (positions st))
    by exact (JsMapOrder.keys_set_present _ _ old _ Hold).
  split; [exact Hkeys|]. split.
  - unfold JsMap.values. rewrite !length_map.
    apply (f_equal (@List.length string)) in Hkeys.
    unfold JsMap.keys in Hkeys. now rewrite !length_map in Hkeys.
  - apply JsMapFacts.get_set_same.
Qed.

(** An "add-marker" followed by a removal of the same id leaves the counter
    where it was and the map without that id; when the id was not in the
    map before, the two messages leave the whole state as it was. *)
Theorem add_then_removal_cancel st position type :
  type <> "add-marker" ->
  exists st',
    deliver socket_id st
      [AddMarker position; Removal type (Position.id position)] = Some st' /\
    counter st' = counter st /\
    positions st' = JsMap.delete (Position.id position) (positions st) /\
    (JsMap.get (Position.id position) (positions st) = None -> st' = st).
Proof.
  intros Htag. simpl. rewrite (onMessage_removal _ _ _ _ Htag). simpl.
  eexists. split; [reflexivity|]. simpl.
  assert (Hmap : JsMap.delete (Position.id position)
                   (JsMap.set (Position.id position)
                      (marker_of socket_id position) (positions st)) =
                 JsMap.delete (Position.id position) (positions st)).
  { destruct (JsMap.get (Position.id position) (positions st)) as [old|] eqn:E.
    - exact (JsMapOrder.delete_set_present _ _ old _ E).
    - rewrite JsMapOrder.delete_set_absent; trivial.
      symmetry. now apply JsMapFacts.delete_absent. }
  split; [lia|]. split; [exact Hmap|].
  intros Habsent. destruct st as [c m]; simpl in *.
  rewrite Hmap, (JsMapFacts.delete_absent _ _ Habsent). f_equal. lia.
Qed.

(** Two messages about different ids can arrive in either order: the
    counter and the marker found under every id come out the same. *)
Theorem messages_about_different_ids_commute st a b :
  well_formed a -> well_formed b -> subject a <> subject b ->
  exists st_ab st_ba,
    deliver socket_id st [a; b] = Some st_ab /\
    deliver socket_id st [b; a] = Some st_ba /\
    counter st_ab = counter st_ba /\
    forall k, JsMap.get k (positions st_ab) = JsMap.get k (positions st_ba).
Proof.
  intros Ha Hb Hne.
  assert (Hstep : forall s x, well_formed x ->
            exists s', onMessage socket_id s x = Some s' /\
                       (counter s' - counter s =
                        if is_add_marker x then 1 else -1)%Z /\
                       forall k, JsMap.get k (positions s') =
                                 if String.eqb k (subject x)
                                 then match x with
                                      | AddMarker position =>
                                          Some (marker_of socket_id position)
                                      | Removal _ _ => None
                                      end
                                 else JsMap.get k (positions s)).
  { intros s x Hx. destruct x as [position | type id]; simpl in Hx.
    - eexists. split; [apply onMessage_add_marker|]. simpl.
      split; [lia|]. intros k. key_cases k (Position.id position).
      + subst k. apply JsMapFacts.get_set_same.
      + now apply JsMapFacts.get_set_other.
    - eexists. split; [now apply onMessage_removal|]. simpl.
      split.
      + unfold is_add_marker; simpl.
        apply String.eqb_neq in Hx. rewrite Hx. lia.
      + intros k. key_cases k id.
        * subst k. apply JsMapFacts.get_delete_same.
        * now apply JsMapFacts.get_delete_other. }
  destruct (Hstep st a Ha) as (sa & Hsa & Hca & Hga).
  destruct (Hstep sa b Hb) as (sab & Hsab & Hcab & Hgab).
  destruct (Hstep st b Hb) as (sb & Hsb & Hcb & Hgb).
  destruct (Hstep sb a Ha) as (sba & Hsba & Hcba & Hgba).
  exists sab, sba. simpl. rewrite Hsa, Hsab, Hsb, Hsba.
  split; [reflexivity|]. split; [reflexivity|]. split; [lia|].
  intros k. rewrite Hgab, Hgba, Hga, Hgb.
  key_cases k (subject a); key_cases k (subject b); trivial.
  congruence.
Qed.

End Composition.

(** ** Counting over a connection *)

Section Counting.

Variable socket_id : string.

Implicit Types (st : AppState) (evts : list OutgoingMessage.t).

Lemma deliver_app evts1 evts2 : forall st,
  deliver socket_id st (evts1 ++ evts2) =
  match deliver socket_id st evts1 with
  | Some st' => deliver socket_id st' evts2
  | None => None
  end.
Proof.
  induction evts1 as [|message rest IH]; intros st; simpl; trivial.
  destruct (onMessage socket_id st message); trivial.
Qed.

Lemma is_add_marker_well_formed message :
  well_formed message ->
  is_add_marker message =
  match message with AddMarker _ => true | Removal _ _ => false end.
Proof.
  destruct message as [position | type id]; simpl; trivial.
  intros Htag. now apply String.eqb_neq.
Qed.

Lemma adds_cons message evts :
  adds (message :: evts) =
  if is_add_marker message then S (adds evts) else adds evts.
Proof. unfold adds; simpl. now destruct (is_add_marker message). Qed.

Lemma removals_cons message evts :
  removals (message :: evts) =
  if is_add_marker message then removals evts else S (removals evts).
Proof. unfold removals; simpl. now destruct (is_add_marker message). Qed.

(** The counter after a connection's messages is the counter before, plus
    the number of "add-marker" messages, minus the number of all other
    messages; the ids in them play no part. *)
Theorem counter_counts_messages evts : forall st,
  Forall well_formed evts ->
  exists st',
    deliver socket_id st evts = Some st' /\
    counter st' =
      (counter st + Z.of_nat (adds evts) - Z.of_nat (removals evts))%Z.
Proof.
  induction evts as [|message rest IH]; intros st Hwf.
  - exists st. split; [reflexivity|]. unfold adds, removals; simpl. lia.
  - inversion Hwf as [|? ? Hmessage Hrest]; subst.
    rewrite adds_cons, removals_cons, is_add_marker_well_formed by assumption.
    destruct message as [position | type id]; simpl in Hmessage.
    + destruct (IH {| positions :=
                        JsMap.set (Position.id position)
                          (marker_of socket_id position) (positions st);
                      counter := counter st + 1 |} Hrest)
        as (st' & Hst' & Hcounter).
      exists st'. split; [exact Hst'|]. rewrite Hcounter. simpl. lia.
    + destruct (IH {| positions := JsMap.delete id (positions st);
                      counter := counter st - 1 |} Hrest)
        as (st' & Hst' & Hcounter).
      exists st'. split.
      * simpl deliver. now rewrite (onMessage_removal _ _ _ _ Hmessage).
      * rewrite Hcounter. simpl. lia.
Qed.

(** The map never holds more markers than it held before plus the number of
    "add-marker" messages that arrived: the snapshot cannot outgrow the
    traffic. *)
Theorem markers_bounded_by_adds evts : forall st,
  Forall well_formed evts ->
  exists st',
    deliver socket_id st evts = Some st' /\
    (List.length (markers (fst (onRender (positions st') 0%float))) <=
     JsMap.size (positions st) + adds evts)%nat.
Proof.
  induction evts as [|message rest IH]; intros st Hwf.
  - exists st. split; [reflexivity|]. simpl.
    unfold JsMap.values, JsMap.size. rewrite length_map. lia.
  - inversion Hwf as [|? ? Hmessage Hrest]; subst.
    rewrite adds_cons, is_add_marker_well_formed by assumption.
    destruct message as [position | type id]; simpl in Hmessage.
    + destruct (IH {| positions :=
                        JsMap.set (Position.id position)
                          (marker_of socket_id position) (positions st);
                      counter := counter st + 1 |} Hrest)
        as (st' & Hst' & Hsize).
      exists st'. split; [exact Hst'|]. cbn [positions] in Hsize.
      pose proof (JsMapOrder.size_set_le (Position.id position)
                    (marker_of socket_id position) (positions st)).
      lia.
    + destruct (IH {| positions := JsMap.delete id (positions st);
                      counter := counter st - 1 |} Hrest)
        as (st' & Hst' & Hsize).
      exists st'. split.
      * simpl deliver. now rewrite (onMessage_removal _ _ _ _ Hmessage).
      * cbn [positions] in Hsize.
        pose proof (JsMapOrder.size_delete_le id (positions st)). lia.
Qed.

End Counting.

(** ** Which marker is the client's own *)

Lemma sizes_differ : 0.1%float <> 0.05%float.
Proof.
  intros H. apply (f_equal (fun x => PrimFloat.eqb x 0.1%float)) in H.
  vm_compute in H. discriminate H.
Qed.

Section OwnMarker.

Variable socket_id : string.

Lemma onMessage_sized_by_id st message st' :
  onMessage socket_id st message = Some st' ->
  sized_by_id socket_id st -> sized_by_id socket_id st'.
Proof.
  intros H Hst. apply handles_iff_onMessage in H.
  destruct H as [st position | st type id Htag]; intros k marker Hin;
    simpl in Hin.
  - apply JsMapOrder.In_set in Hin as [[-> ->] | Hin]; [reflexivity|].
    now apply Hst.
  - apply JsMapOrder.In_delete in Hin. now apply Hst.
Qed.

Lemma deliver_sized_by_id evts : forall st st',
  deliver socket_id st evts = Some st' ->
  sized_by_id socket_id st -> sized_by_id socket_id st'.
Proof.
  induction evts as [|message rest IH]; intros st st'; simpl.
  - now intros [= ->].
  - destruct (onMessage socket_id st message) as [st1|] eqn:E;
      [|discriminate].
    intros H Hst. apply (IH _ _ H).
    now apply (onMessage_sized_by_id st message).
Qed.

(** After any traffic, a marker of the snapshot has size 0.1 exactly when
    it stands for the socket's own id, and the snapshot holds at most one
    marker of that size. *)
Theorem own_marker_is_the_only_large_one
    (evts : list OutgoingMessage.t) (phi : float) :
  Forall well_formed evts ->
  exists st,
    deliver socket_id initial evts = Some st /\
    (forall id marker,
        In (id, marker)
           (combine (JsMap.keys (positions st))
                    (markers (fst (onRender (positions st) phi)))) ->
        (size marker = 0.1%float <-> id = socket_id)) /\
    (forall i j m1 m2,
        nth_error (markers (fst (onRender (positions st) phi))) i = Some m1 ->
        nth_error (markers (fst (onRender (positions st) phi))) j = Some m2 ->
        size m1 = 0.1%float -> size m2 = 0.1%float -> i = j).
Proof.
  intros Hwf.
  destruct (deliver_well_formed socket_id evts initial Hwf) as [st Hst].
  assert (Hnd : NoDup (JsMap.keys (positions st))).
  { apply (deliver_NoDup socket_id evts initial st Hst). constructor. }
  assert (Hsized : sized_by_id socket_id st).
  { apply (deliver_sized_by_id evts initial st Hst). intros id marker []. }
  assert (Hown : forall id marker,
             In (id, marker) (positions st) ->
             (size marker = 0.1%float <-> id = socket_id)).
  { intros id marker Hin. rewrite (Hsized id marker Hin).
    key_cases id socket_id.
    - tauto.
    - split; [|contradiction].
      intros H. symmetry in H. now apply sizes_differ in H. }
  exists st. split; [exact Hst|].
  rewrite onRender_markers. split.
  - intros id marker. rewrite JsMapFacts.combine_keys_values. apply Hown.
  - intros i j m1 m2 Hi Hj H1 H2.
    unfold JsMap.values in Hi, Hj.
    rewrite nth_error_map in Hi, Hj.
    destruct (nth_error (positions st) i) as [[k1 v1]|] eqn:Ei;
      [|discriminate].
    destruct (nth_error (positions st) j) as [[k2 v2]|] eqn:Ej;
      [|discriminate].
    simpl in Hi, Hj. injection Hi as ->. injection Hj as ->.
    rename Ei into Hi, Ej into Hj.
    pose proof (proj1 (Hown k1 m1 (nth_error_In _ _ Hi)) H1) as K1.
    pose proof (proj1 (Hown k2 m2 (nth_error_In _ _ Hj)) H2) as K2.
    subst k1 k2.
    apply (proj1 (NoDup_nth_error (JsMap.keys (positions st))) Hnd).
    + apply nth_error_Some. unfold JsMap.keys.
      erewrite map_nth_error by exact Hi. discriminate.
    + unfold JsMap.keys.
      erewrite (map_nth_error fst i _ Hi), (map_nth_error fst j _ Hj).
      reflexivity.
Qed.

End OwnMarker.

(** ** How far the counter is from the number of markers *)

Section Drift.

Variable socket_id : string.

Implicit Types (st : AppState) (evts before : list OutgoingMessage.t).

Lemma shown_get before st id :
  deliver socket_id initial before = Some st ->
  shown id before =
  match JsMap.get id (positions st) with Some _ => true | None => false end.
Proof.
  intros Hst. unfold shown, latest_location.
  pose proof (deliver_location socket_id before id initial st Hst) as H.
  simpl in H. rewrite <- H. now destruct (JsMap.get id (positions st)).
Qed.

Lemma onMessage_surplus before st message st' :
  deliver socket_id initial before = Some st ->
  onMessage socket_id st message = Some st' ->
  (counter st' - Z.of_nat (JsMap.size (positions st')) =
   counter st - Z.of_nat (JsMap.size (positions st)) +
   surplus before message)%Z.
Proof.
  intros Hbefore H.
  assert (Hnd : NoDup (JsMap.keys (positions st))).
  { apply (deliver_NoDup socket_id before initial st Hbefore). constructor. }
  apply handles_iff_onMessage in H.
  destruct H as [st position | st type id Htag]; simpl.
  - rewrite JsMapFacts.size_set, (shown_get before st _ Hbefore).
    destruct (JsMap.get (Position.id position) (positions st)); lia.
  - rewrite (shown_get before st _ Hbefore).
    destruct (JsMap.get id (positions st)) as [marker|] eqn:Hget.
    + rewrite <- (JsMapFacts.size_delete_present id marker _ Hnd Hget). lia.
    + rewrite (JsMapFacts.delete_absent _ _ Hget). lia.
Qed.

Lemma deliver_drift evts : forall before st st',
  deliver socket_id initial before = Some st ->
  deliver socket_id st evts = Some st' ->
  (counter st' - Z.of_nat (JsMap.size (positions st')) =
   counter st - Z.of_nat (JsMap.size (positions st)) + drift before evts)%Z.
Proof.
  induction evts as [|message rest IH]; intros before st st' Hbefore; simpl.
  - intros [= ->]. lia.
  - destruct (onMessage socket_id st message) as [st1|] eqn:E;
      [|discriminate].
    intros Hrest.
    assert (Hbefore1 : deliver socket_id initial (before ++ [message])
                       = Some st1).
    { rewrite deliver_app, Hbefore. simpl. now rewrite E. }
    rewrite (IH _ _ _ Hbefore1 Hrest).
    rewrite (onMessage_surplus before st message st1 Hbefore E). lia.
Qed.

(** After any traffic from the empty map, the counter is the number of
    markers plus the number of "add-marker" messages for ids that were
    already shown, minus the number of removals for ids that were not. *)
Theorem counter_is_cardinality_plus_drift evts :
  Forall well_formed evts ->
  exists st,
    deliver socket_id initial evts = Some st /\
    counter st = (Z.of_nat (JsMap.size (positions st)) + drift [] evts)%Z.
Proof.
  intros Hwf.
  destruct (deliver_well_formed socket_id evts initial Hwf) as [st Hst].
  exists st. split; [exact Hst|].
  pose proof (deliver_drift evts [] initial st eq_refl Hst) as H.
  simpl in H. lia.
Qed.

Lemma clean_drift evts : forall before,
  (forall b message a,
      evts = b ++ message :: a -> surplus (before ++ b) message = 0%Z) ->
  drift before evts = 0%Z.
Proof.
  induction evts as [|message rest IH]; intros before Hclean; simpl; trivial.
  rewrite (IH (before ++ [message])).
  - pose proof (Hclean [] message rest eq_refl) as H.
    rewrite app_nil_r in H. lia.
  - intros b m a ->. rewrite <- app_assoc. simpl.
    now apply (Hclean (message :: b) m a).
Qed.

Lemma clean_prefix before after : clean (before ++ after) -> clean before.
Proof.
  intros Hclean b message a ->.
  apply (Hclean b message (a ++ after)).
  now rewrite <- app_assoc.
Qed.

Lemma clean_counter evts :
  Forall well_formed evts ->
  clean evts ->
  exists st,
    deliver socket_id initial evts = Some st /\ counter_is_cardinality st.
Proof.
  intros Hwf Hclean.
  destruct (deliver_well_formed socket_id evts initial Hwf) as [st Hst].
  exists st. split; [exact Hst|].
  pose proof (deliver_drift evts [] initial st eq_refl Hst) as H.
  rewrite (clean_drift evts [] Hclean) in H.
  unfold counter_is_cardinality. simpl in H. lia.
Qed.

Lemma deliver_counter evts : forall st st',
  deliver socket_id st evts = Some st' ->
  counter st' =
    (counter st + Z.of_nat (adds evts) - Z.of_nat (removals evts))%Z.
Proof.
  induction evts as [|message rest IH]; intros st st'; simpl deliver.
  - intros [= ->]. unfold adds, removals; simpl. lia.
  - destruct (onMessage socket_id st message) as [st1|] eqn:E;
      [|discriminate].
    intros Hrest. rewrite (IH _ _ Hrest), adds_cons, removals_cons.
    rewrite (is_add_marker_well_formed message
               (onMessage_Some_well_formed socket_id st message st1 E)).
    apply handles_iff_onMessage in E.
    destruct E as [st position | st type id Htag]; simpl; lia.
Qed.

(** On clean traffic (every "add-marker" for an id not shown, every removal
    for an id shown) the counter is the number of markers after each
    message. *)
Theorem counter_is_cardinality_on_clean_traffic evts :
  Forall well_formed evts ->
  clean evts ->
  forall before after,
    evts = before ++ after ->
    exists st,
      deliver socket_id initial before = Some st /\
      counter_is_cardinality st.
Proof.
  intros Hwf Hclean before after ->.
  apply Forall_app in Hwf as [Hwf _].
  apply clean_prefix in Hclean.
  now apply clean_counter.
Qed.

(** The badge disappears exactly when as many other messages as
    "add-marker" messages have arrived, whatever the map holds. *)
Theorem badge_hidden_iff_balanced evts :
  Forall well_formed evts ->
  exists st,
    deliver socket_id initial evts = Some st /\
    (live_indicator (counter st) = None <-> adds evts = removals evts).
Proof.
  intros Hwf.
  destruct (deliver_well_formed socket_id evts initial Hwf) as [st Hst].
  pose proof (deliver_counter evts initial st Hst) as Hcounter.
  exists st. split; [exact Hst|].
  unfold live_indicator. simpl in Hcounter.
  destruct (Z.eqb_spec (counter st) 0) as [E | E].
  - split; [lia | reflexivity].
  - split; [discriminate | lia].
Qed.

(** On clean traffic the badge tells the globe: it is hidden when the
    snapshot is empty, and otherwise reads the number of markers of the
    snapshot, "visitor" for one and "visitors" for more. *)
Theorem badge_counts_markers_on_clean_traffic evts (phi : float) :
  Forall well_formed evts ->
  clean evts ->
  exists st,
    deliver socket_id initial evts = Some st /\
    live_indicator (counter st) =
    match markers (fst (onRender (positions st) phi)) with
    | [] => None
    | [_] => Some "1 visitor online"
    | snapshot =>
        Some (String.append (number_text (Z.of_nat (List.length snapshot)))
                " visitors online")
    end.
Proof.
  intros Hwf Hclean.
  destruct (clean_counter evts Hwf Hclean) as (st & Hst & Hinv).
  exists st. split; [exact Hst|].
  rewrite onRender_markers. unfold counter_is_cardinality in Hinv.
  rewrite Hinv. unfold JsMap.size, JsMap.values.
  destruct (positions st) as [|e1 [|e2 rest]]; try reflexivity.
  cbn [map]. simpl List.length. rewrite length_map.
  set (n := Z.of_nat (S (S (List.length rest)))).
  assert (Hn : (2 <= n)%Z) by (subst n; lia).
  unfold live_indicator, live_text.
  destruct (Z.eqb_spec n 0); [lia|].
  destruct (Z.eqb_spec n 1); [lia|]. reflexivity.
Qed.

End Drift.

(** ** Frames between messages *)

Lemma angle_at_any_positions (p q : JsMap.t Marker) (frame : nat) :
  angle_at p frame = angle_at q frame.
Proof. induction frame as [|frame IH]; simpl; now rewrite ?IH. Qed.

Section EventLoop.

Variable socket_id : string.

Implicit Types (page : Page) (callbacks : list Callback).

Lemma event_loop_app page callbacks1 callbacks2 :
  event_loop socket_id page (callbacks1 ++ callbacks2) =
  event_loop socket_id (event_loop socket_id page callbacks1) callbacks2.
Proof. unfold event_loop. apply fold_left_app. Qed.

Lemma event_loop_rendered callbacks : forall page,
  exists more,
    rendered (event_loop socket_id page callbacks) = rendered page ++ more /\
    List.length more = frames_of callbacks.
Proof.
  induction callbacks as [|[message|] rest IH]; intros page.
  - exists []. now rewrite app_nil_r.
  - destruct (IH (callback socket_id page (Message message)))
      as (more & Hmore & Hlen).
    exists more. split; [exact Hmore | exact Hlen].
  - destruct (IH (callback socket_id page Frame)) as (more & Hmore & Hlen).
    exists (fst (onRender (positions (app page)) (angle page)) :: more).
    split.
    + change (event_loop socket_id page (Frame :: rest))
        with (event_loop socket_id (callback socket_id page Frame) rest).
      rewrite Hmore. simpl. now rewrite <- app_assoc.
    + simpl. now rewrite Hlen.
Qed.

Lemma event_loop_app_state callbacks : forall page,
  Forall well_formed (messages_of callbacks) ->
  deliver socket_id (app page) (messages_of callbacks) =
  Some (app (event_loop socket_id page callbacks)).
Proof.
  induction callbacks as [|[message|] rest IH]; intros page Hwf.
  - reflexivity.
  - simpl in Hwf. inversion Hwf as [|? ? Hmessage Hrest]; subst.
    destruct (onMessage_well_formed socket_id (app page) message Hmessage)
      as [st Hst].
    change (event_loop socket_id page (Message message :: rest))
      with (event_loop socket_id
              (callback socket_id page (Message message)) rest).
    rewrite <- (IH _ Hrest). simpl. now rewrite Hst.
  - change (event_loop socket_id page (Frame :: rest))
      with (event_loop socket_id (callback socket_id page Frame) rest).
    now rewrite <- (IH _ Hwf).
Qed.

Lemma event_loop_angle callbacks : forall page frame,
  angle page = angle_at JsMap.empty frame ->
  angle (event_loop socket_id page callbacks) =
  angle_at JsMap.empty (frame + frames_of callbacks).
Proof.
  induction callbacks as [|[message|] rest IH]; intros page frame Hangle.
  - simpl. now rewrite Nat.add_0_r.
  - change (event_loop socket_id page (Message message :: rest))
      with (event_loop socket_id
              (callback socket_id page (Message message)) rest).
    now rewrite (IH _ frame).
  - change (event_loop socket_id page (Frame :: rest))
      with (event_loop socket_id (callback socket_id page Frame) rest).
    rewrite (IH _ (S frame)).
    + simpl. now rewrite Nat.add_succ_r.
    + simpl. now rewrite Hangle.
Qed.

(** Whatever the interleaving of messages and frames after mounting, each
    frame hands the renderer the markers of exactly the messages that came
    before it, and an angle that depends on the number of earlier frames
    only: messages never touch the rotation. *)
Theorem frame_shows_the_messages_before_it callbacks before after :
  Forall well_formed (messages_of callbacks) ->
  callbacks = before ++ Frame :: after ->
  exists st,
    deliver socket_id initial (messages_of before) = Some st /\
    nth_error (rendered (event_loop socket_id mounted callbacks))
              (frames_of before) =
    Some {| markers := JsMap.values (positions st);
            phi := angle_at JsMap.empty (frames_of before) |} /\
    List.length (rendered (event_loop socket_id mounted callbacks)) =
      frames_of callbacks.
Proof.
  intros Hwf ->.
  assert (Hwf_before : Forall well_formed (messages_of before)).
  { clear - Hwf. induction before as [|[message|] rest IH]; simpl in *.
    - constructor.
    - inversion Hwf; subst. constructor; auto.
    - auto. }
  set (page := event_loop socket_id mounted before).
  exists (app page). split.
  { exact (event_loop_app_state before mounted Hwf_before). }
  split.
  - rewrite event_loop_app.
    change (event_loop socket_id (event_loop socket_id mounted before)
              (Frame :: after))
      with (event_loop socket_id (callback socket_id page Frame) after).
    destruct (event_loop_rendered after (callback socket_id page Frame))
      as (more & -> & _).
    destruct (event_loop_rendered before mounted) as (earlier & He & Hlen).
    fold page in He. simpl in He. simpl rendered.
    rewrite He, <- app_assoc.
    rewrite nth_error_app2 by lia. rewrite Hlen, Nat.sub_diag. simpl.
    f_equal. f_equal.
    exact (event_loop_angle before mounted 0 eq_refl).
  - destruct (event_loop_rendered (before ++ Frame :: after) mounted)
      as (more & -> & Hlen).
    exact Hlen.
Qed.

End EventLoop.

(** ** The rotation over the first frames *)

Lemma turn_iter (frames : nat) :
  snd (nat_rect (fun _ => (bool * float)%type) (true, 0%float)
         (fun _ => turn) frames) = angle_at JsMap.empty frames /\
  (fst (nat_rect (fun _ => (bool * float)%type) (true, 0%float)
          (fun _ => turn) frames) = true ->
   forall frame, (frame < frames)%nat ->
     (angle_at JsMap.empty frame <? angle_at JsMap.empty (S frame))%float
     = true).
Proof.
  induction frames as [|frames [IHangle IHgrows]].
  - split; [reflexivity|]. intros _ frame H. inversion H.
  - cbn [nat_rect].
    set (s := nat_rect (fun _ => (bool * float)%type) (true, 0%float)
                (fun _ => turn) frames) in *.
    unfold turn. cbn [fst snd onRender]. rewrite IHangle.
    change (angle_at JsMap.empty (S frames))
      with (angle_at JsMap.empty frames + 0.01)%float.
    split; [reflexivity|].
    destruct (angle_at JsMap.empty frames
              <? angle_at JsMap.empty frames + 0.01)%float eqn:E;
      [|discriminate].
    intros Hfst frame Hlt.
    destruct (Nat.eq_dec frame frames) as [-> | Hne].
    + exact E.
    + apply IHgrows; [exact Hfst | lia].
Qed.

Lemma grows_for_a_million :
  fst (Pos.iter turn (true, 0%float) 1000000) = true.
Proof. vm_compute. reflexivity. Qed.

Lemma grows_for_a_million_frames :
  fst (nat_rect (fun _ => (bool * float)%type) (true, 0%float)
         (fun _ => turn) (Pos.to_nat 1000000)) = true.
Proof. rewrite <- Pos2Nat.inj_iter. exact grows_for_a_million. Qed.

(** During the first million frames (more than four hours at sixty frames
    a second) the angle handed to the renderer is strictly greater at each
    frame than at the frame before, whatever the map holds. *)
Theorem angle_grows_for_a_million_frames
    (positions : JsMap.t Marker) (frame : nat) :
  (N.of_nat frame < 1000000)%N ->
  (angle_at positions frame <? angle_at positions (S frame))%float = true.
Proof.
  intros Hframe.
  rewrite (angle_at_any_positions positions JsMap.empty frame).
  rewrite (angle_at_any_positions positions JsMap.empty (S frame)).
  apply (proj2 (turn_iter (Pos.to_nat 1000000)) grows_for_a_million_frames).
  lia.
Qed.

(** ** The further theorems at the sample traffic *)

Lemma sample_traffic_clean : clean sample_traffic.
Proof.
  intros before message after H.
  destruct before as [|m1 [|m2 [|m3 [|m4 [|m5 rest]]]]];
    simpl in H; try discriminate H; injection H; intros; subst;
    reflexivity.
Defined.

Lemma add_marker_again_replaces_in_place_witness :
  JsMap.get "abc" (positions abc_shown) =
    Some {| location := (10, 20)%float; size := 0.05 |} /\
  exists st',
    onMessage me abc_shown abc_returns = Some st' /\
    JsMap.keys (positions st') = JsMap.keys (positions abc_shown) /\
    List.length (markers (fst (onRender (positions st') 0%float))) =
      List.length (markers (fst (onRender (positions abc_shown) 0%float))) /\
    JsMap.get "abc" (positions st') =
      Some {| location := (30, 40)%float; size := 0.05 |}.
Proof.
  split; [reflexivity|].
  exact (add_marker_again_replaces_in_place me abc_shown
           {| Position.id := "abc"; Position.lat := 30; Position.lng := 40 |}
           {| location := (10, 20)%float; size := 0.05 |} eq_refl).
Defined.

Lemma add_then_removal_cancel_witness :
  "remove-marker" <> "add-marker" /\
  exists st',
    deliver me initial [abc_joins; abc_leaves] = Some st' /\
    counter st' = counter initial /\
    positions st' = JsMap.delete "abc" (positions initial) /\
    (JsMap.get "abc" (positions initial) = None -> st' = initial).
Proof.
  split; [discriminate|].
  apply (add_then_removal_cancel me initial
           {| Position.id := "abc"; Position.lat := 10; Position.lng := 20 |}
           "remove-marker").
  discriminate.
Defined.

Lemma messages_about_different_ids_commute_witness :
  well_formed me_joins /\ well_formed abc_leaves /\
  subject me_joins <> subject abc_leaves /\
  exists st_ab st_ba,
    deliver me abc_shown [me_joins; abc_leaves] = Some st_ab /\
    deliver me abc_shown [abc_leaves; me_joins] = Some st_ba /\
    counter st_ab = counter st_ba /\
    forall k, JsMap.get k (positions st_ab) = JsMap.get k (positions st_ba).
Proof.
  split; [exact I|]. split; [discriminate|]. split; [discriminate|].
  apply (messages_about_different_ids_commute me abc_shown
           me_joins abc_leaves); [exact I | discriminate | discriminate].
Defined.

Lemma counter_counts_messages_witness :
  Forall well_formed sample_traffic /\
  exists st',
    deliver me initial sample_traffic = Some st' /\
    counter st' =
      (counter initial + Z.of_nat (adds sample_traffic)
       - Z.of_nat (removals sample_traffic))%Z.
Proof.
  split; [exact sample_traffic_well_formed|].
  exact (counter_counts_messages me sample_traffic initial
           sample_traffic_well_formed).
Defined.

Lemma markers_bounded_by_adds_witness :
  Forall well_formed sample_traffic /\
  exists st',
    deliver me initial sample_traffic = Some st' /\
    (List.length (markers (fst (onRender (positions st') 0%float))) <=
     JsMap.size (positions initial) + adds sample_traffic)%nat.
Proof.
  split; [exact sample_traffic_well_formed|].
  exact (markers_bounded_by_adds me sample_traffic initial
           sample_traffic_well_formed).
Defined.

Lemma own_marker_is_the_only_large_one_witness :
  Forall well_formed sample_traffic /\
  exists st,
    deliver me initial sample_traffic = Some st /\
    (forall id marker,
        In (id, marker)
           (combine (JsMap.keys (positions st))
                    (markers (fst (onRender (positions st) 0%float)))) ->
        (size marker = 0.1%float <-> id = me)) /\
    (forall i j m1 m2,
        nth_error (markers (fst (onRender (positions st) 0%float))) i
          = Some m1 ->
        nth_error (markers (fst (onRender (positions st) 0%float))) j
          = Some m2 ->
        size m1 = 0.1%float -> size m2 = 0.1%float -> i = j).
Proof.
  split; [exact sample_traffic_well_formed|].
  exact (own_marker_is_the_only_large_one me sample_traffic 0%float
           sample_traffic_well_formed).
Defined.

Lemma counter_is_cardinality_plus_drift_witness :
  Forall well_formed (sample_traffic ++ [abc_returns]) /\
  exists st,
    deliver me initial (sample_traffic ++ [abc_returns]) = Some st /\
    counter st =
      (Z.of_nat (JsMap.size (positions st))
       + drift [] (sample_traffic ++ [abc_returns]))%Z.
Proof.
  assert (H : Forall well_formed (sample_traffic ++ [abc_returns])).
  { apply Forall_app. split; [exact sample_traffic_well_formed|].
    constructor; [exact I | constructor]. }
  split; [exact H|].
  exact (counter_is_cardinality_plus_drift me
           (sample_traffic ++ [abc_returns]) H).
Defined.

Lemma counter_is_cardinality_on_clean_traffic_witness :
  Forall well_formed sample_traffic /\
  clean sample_traffic /\
  sample_traffic = [abc_joins; me_joins] ++ [abc_leaves; abc_returns] /\
  exists st,
    deliver me initial [abc_joins; me_joins] = Some st /\
    counter_is_cardinality st.
Proof.
  split; [exact sample_traffic_well_formed|].
  split; [exact sample_traffic_clean|].
  split; [reflexivity|].
  exact (counter_is_cardinality_on_clean_traffic me sample_traffic
           sample_traffic_well_formed sample_traffic_clean
           [abc_joins; me_joins] [abc_leaves; abc_returns] eq_refl).
Defined.

Lemma badge_hidden_iff_balanced_witness :
  Forall well_formed sample_traffic /\
  exists st,
    deliver me initial sample_traffic = Some st /\
    (live_indicator (counter st) = None <->
     adds sample_traffic = removals sample_traffic).
Proof.
  split; [exact sample_traffic_well_formed|].
  exact (badge_hidden_iff_balanced me sample_traffic
           sample_traffic_well_formed).
Defined.

Lemma badge_counts_markers_on_clean_traffic_witness :
  Forall well_formed sample_traffic /\
  clean sample_traffic /\
  exists st,
    deliver me initial sample_traffic = Some st /\
    live_indicator (counter st) =
    match markers (fst (onRender (positions st) 0%float)) with
    | [] => None
    | [_] => Some "1 visitor online"
    | snapshot =>
        Some (String.append (number_text (Z.of_nat (List.length snapshot)))
                " visitors online")
    end.
Proof.
  split; [exact sample_traffic_well_formed|].
  split; [exact sample_traffic_clean|].
  exact (badge_counts_markers_on_clean_traffic me sample_traffic 0%float
           sample_traffic_well_formed sample_traffic_clean).
Defined.

Lemma frame_shows_the_messages_before_it_witness :
  Forall well_formed (messages_of sample_callbacks) /\
  sample_callbacks =
    [Message abc_joins; Frame; Message me_joins; Message abc_leaves]
    ++ Frame :: [Message abc_returns] /\
  exists st,
    deliver me initial
      (messages_of
         [Message abc_joins; Frame; Message me_joins; Message abc_leaves])
      = Some st /\
    nth_error (rendered (event_loop me mounted sample_callbacks))
      (frames_of
         [Message abc_joins; Frame; Message me_joins; Message abc_leaves]) =
    Some {| markers := JsMap.values (positions st);
            phi := angle_at JsMap.empty
                     (frames_of
                        [Message abc_joins; Frame; Message me_joins;
                         Message abc_leaves]) |} /\
    List.length (rendered (event_loop me mounted sample_callbacks)) =
      frames_of sample_callbacks.
Proof.
  split; [exact sample_traffic_well_formed|].
  split; [reflexivity|].
  exact (frame_shows_the_messages_before_it me sample_callbacks
           [Message abc_joins; Frame; Message me_joins; Message abc_leaves]
           [Message abc_returns] sample_traffic_well_formed eq_refl).
Defined.

Lemma angle_grows_for_a_million_frames_witness :
  (N.of_nat 5 < 1000000)%N /\
  (angle_at JsMap.empty 5 <? angle_at JsMap.empty 6)%float = true.
Proof.
  split; [reflexivity|].
  exact (angle_grows_for_a_million_frames JsMap.empty 5 eq_refl).
Defined.

Example sample_callbacks_rendered :
  rendered (event_loop me mounted sample_callbacks) =
  [{| markers := [{| location := (10, 20)%float; size := 0.05 |}];
      phi := 0 |};
   {| markers := [{| location := (52.5, 13.25)%float; size := 0.1 |}];
      phi := 0.01 |}].
Proof. reflexivity. Qed.

Example live_text_samples :
  map live_indicator [0; 1; 2; -1]%Z =
  [None; Some "1 visitor online"; Some "2 visitors online";
   Some "-1 visitors online"].
Proof. reflexivity. Qed.

(** ** The rotation without end

    The binary64 numbers are finitely many, so no sequence of them grows at
    every step: [rank] rises by at least one with [<?] and stays within
    fixed bounds. *)





Section Sequences.

Variable a : nat -> float.




End Sequences.


Section Rotation.

Variable socket_id : string.



End Rotation.

